(** * saclib platform shims: [sysdep.h] and [GC.c]

    A shallow embedding of the two files patched into saclib

    - [build/pkgs/saclib/patches/sysdep.h]: the capability header, a short
      sequence of preprocessor directives.  It is embedded as a list of
      directives run by a small preprocessor ([Cpp]) over a macro table.
    - [build/pkgs/saclib/patches/GC.c]: the collection entry point [GC],
      which calls [getcontext] and then [GCSI].  It is embedded as an
      interaction tree over the calls it makes ([Trampoline]).

    Whatever the two files take from the target (system headers, the size of
    [Word]) is gathered in the record [platform]. *)

From stdpp Require Import gmap strings list fin_maps.
From ITree Require Import ITree ITreeFacts Events.State Events.StateFacts.

Local Open Scope Z_scope.
Set Warnings "-register-all".

(** ** The target platform *)

(** What the build target provides.  None of this is part of the two files:
    the values come from the C library's headers and from [saclib.h]. *)
Record platform := {
  (** headers found on the include path *)
  headers : list string;
  (** [__BYTE_ORDER] and [__LITTLE_ENDIAN], from [<endian.h>] *)
  byte_order : Z;
  little_endian : Z;
  (** [__WORDSIZE], from [<bits/wordsize.h>] *)
  wordsize : Z;
  (** [FE_DOWNWARD] and [FE_UPWARD], from [<fenv.h>]: each macro is defined
      only when the floating-point unit has that rounding direction *)
  fe_downward : option Z;
  fe_upward : option Z;
  (** [sizeof(Word)] in bytes, with [Word] as declared by [saclib.h] *)
  sizeof_Word : Z;
  (** size of an object pointer, in bytes *)
  sizeof_pointer : Z
}.

(** ** A preprocessor for object-like macros *)

Module Cpp.

(** The macro table.  A macro is recorded with its replacement list, as far
    as the header needs it: [None] for an empty one ([# define M]), [Some z]
    for an integer constant. *)
Abbreviation macros := (gmap string (option Z)).

Definition defined (m : macros) (n : string) : bool :=
  bool_decide (is_Some (m !! n)).

(** Controlling expressions of [#if]. *)
Inductive expr :=
| Num (z : Z)
| Ident (n : string)
| Defined (n : string)
| Eq (a b : expr)
| And (a b : expr).

Definition of_bool (b : bool) : Z := if b then 1 else 0.

(** An identifier is macro-replaced; one that is not a macro counts as [0];
    one with an empty replacement list leaves an ill-formed expression. *)
Fixpoint eval (m : macros) (e : expr) : option Z :=
  match e with
  | Num z => Some z
  | Ident n =>
      match m !! n with
      | None => Some 0
      | Some (Some z) => Some z
      | Some None => None
      end
  | Defined n => Some (of_bool (defined m n))
  | Eq a b =>
      x ← eval m a; y ← eval m b; Some (of_bool (bool_decide (x = y)))
  | And a b =>
      x ← eval m a; y ← eval m b;
      Some (of_bool (negb (bool_decide (x = 0)) && negb (bool_decide (y = 0))))
  end.

Inductive directive :=
| Include (h : string)
| Define (n : string) (body : option Z)
| Undef (n : string)
| If (c : expr) (then_ else_ : list directive).

(** The macros a system header defines on platform [p]. *)
Definition header_macros (p : platform) (h : string) : list (string * option Z) :=
  if bool_decide (h = "endian.h") then
    [("__LITTLE_ENDIAN", Some (little_endian p));
     ("__BYTE_ORDER", Some (byte_order p))]
  else if bool_decide (h = "bits/wordsize.h") then
    [("__WORDSIZE", Some (wordsize p))]
  else if bool_decide (h = "fenv.h") then
    match fe_downward p with Some z => [("FE_DOWNWARD", Some z)] | None => [] end ++
    match fe_upward p with Some z => [("FE_UPWARD", Some z)] | None => [] end
  else [].

Definition define_all (ds : list (string * option Z)) (m : macros) : macros :=
  foldl (λ m d, <[d.1 := d.2]> m) m ds.

(** [#include <h>]: a fatal error when the platform has no such header. *)
Definition include (p : platform) (h : string) (m : macros) : option macros :=
  if bool_decide (h ∈ headers p) then Some (define_all (header_macros p h) m)
  else None.

(** One executed directive, with the macro table it found. *)
Abbreviation log := (list (macros * directive)).

(** Running a directive gives the directives executed, in order, and the
    final table; [None] is a failed build.  [# define] of a macro that is
    already defined replaces it. *)
Fixpoint exec (p : platform) (d : directive) (m : macros) : option (log * macros) :=
  match d with
  | Include h => m' ← include p h m; Some ([(m, d)], m')
  | Define n body => Some ([(m, d)], <[n := body]> m)
  | Undef n => Some ([(m, d)], delete n m)
  | If c then_ else_ =>
      v ← eval m c;
      let fix group (ds : list directive) (m : macros) : option (log * macros) :=
        match ds with
        | [] => Some ([], m)
        | d' :: ds' =>
            r1 ← exec p d' m; r2 ← group ds' r1.2; Some (r1.1 ++ r2.1, r2.2)
        end in
      if bool_decide (v = 0) then group else_ m else group then_ m
  end.

Fixpoint exec_list (p : platform) (ds : list directive) (m : macros)
  : option (log * macros) :=
  match ds with
  | [] => Some ([], m)
  | d :: ds' =>
      r1 ← exec p d m; r2 ← exec_list p ds' r1.2; Some (r1.1 ++ r2.1, r2.2)
  end.

(** The macro table a translation unit is left with. *)
Definition preprocess (p : platform) (ds : list directive) (m : macros)
  : option macros :=
  snd <$> exec_list p ds m.

End Cpp.

Import Cpp.

(** ** The capability header [sysdep.h] *)

Module Sysdep.

Definition byte_order_check : directive :=
  If (Eq (Ident "__BYTE_ORDER") (Ident "__LITTLE_ENDIAN"))
    [ Define "_LITTLE_ENDIAN_" None;
      Undef "_BIG_ENDIAN_" ]
    [ Undef "_LITTLE_ENDIAN_";
      Define "_BIG_ENDIAN_" None ].

Definition rounding_check : directive :=
  If (And (Defined "FE_DOWNWARD") (Defined "FE_UPWARD"))
    [ Define "_X86_LINUX_" None ]
    [].

Definition sysdep_h : list directive :=
  [ Include "endian.h";
    Include "bits/wordsize.h";
    byte_order_check;
    Include "fenv.h";
    rounding_check ].

(** The header included [n] times in a row. *)
Definition included (n : nat) : list directive :=
  mjoin (replicate n sysdep_h).

(** The platform ships the three system headers [sysdep.h] includes. *)
Definition shipped (p : platform) : Prop :=
  "endian.h" ∈ headers p ∧ "bits/wordsize.h" ∈ headers p ∧
  "fenv.h" ∈ headers p.

#[global] Instance shipped_dec p : Decision (shipped p).
Proof. unfold shipped. apply _. Defined.

(** *** One inclusion as a straight line

    On a platform that ships the system headers, one inclusion comes down
    to three table updates for the headers and the chosen branch of each
    conditional group.  [sysdep_h_exec] below shows that [exec_list] on
    [sysdep_h] computes exactly this. *)

Definition endian_h (p : platform) (m : macros) : macros :=
  define_all (header_macros p "endian.h") m.
Definition wordsize_h (p : platform) (m : macros) : macros :=
  define_all (header_macros p "bits/wordsize.h") m.
Definition fenv_h (p : platform) (m : macros) : macros :=
  define_all (header_macros p "fenv.h") m.

Definition byte_order_branch (p : platform) (m : macros) : log * macros :=
  if bool_decide (byte_order p = little_endian p)
  then ([(m, Define "_LITTLE_ENDIAN_" None);
         (<["_LITTLE_ENDIAN_" := None]> m, Undef "_BIG_ENDIAN_")],
        delete "_BIG_ENDIAN_" (<["_LITTLE_ENDIAN_" := None]> m))
  else ([(m, Undef "_LITTLE_ENDIAN_");
         (delete "_LITTLE_ENDIAN_" m, Define "_BIG_ENDIAN_" None)],
        <["_BIG_ENDIAN_" := None]> (delete "_LITTLE_ENDIAN_" m)).

Definition rounding_branch (m : macros) : log * macros :=
  if defined m "FE_DOWNWARD" && defined m "FE_UPWARD"
  then ([(m, Define "_X86_LINUX_" None)], <["_X86_LINUX_" := None]> m)
  else ([], m).

(** The table in front of the later directives of the header. *)
Definition at_byte_order_check (p : platform) (m : macros) : macros :=
  wordsize_h p (endian_h p m).
Definition at_fenv_h (p : platform) (m : macros) : macros :=
  (byte_order_branch p (at_byte_order_check p m)).2.
Definition at_rounding_check (p : platform) (m : macros) : macros :=
  fenv_h p (at_fenv_h p m).

Definition sysdep_h_run (p : platform) (m : macros) : log * macros :=
  let r3 := byte_order_branch p (at_byte_order_check p m) in
  let r5 := rounding_branch (at_rounding_check p m) in
  ((m, Include "endian.h") :: (endian_h p m, Include "bits/wordsize.h") ::
     r3.1 ++ (r3.2, Include "fenv.h") :: r5.1,
   r5.2).

(** A macro of [<fenv.h>] is seen by the translation unit when the platform
    defines it or when the unit came with a definition of its own. *)
Definition sees (m : macros) (n : string) (v : option Z) : bool :=
  bool_decide (is_Some v) || defined m n.

Definition sees_both (p : platform) (m : macros) : bool :=
  sees m "FE_DOWNWARD" (fe_downward p) && sees m "FE_UPWARD" (fe_upward p).

(** The macros the header names, its three markers among them. *)
Definition named : list string :=
  [ "__BYTE_ORDER"; "__LITTLE_ENDIAN"; "__WORDSIZE";
    "_LITTLE_ENDIAN_"; "_BIG_ENDIAN_";
    "FE_DOWNWARD"; "FE_UPWARD"; "_X86_LINUX_" ].

(** *** What the specification says about the markers *)

(** Exactly one endianness marker: not both, not neither. *)
Definition one_endianness (m : macros) : Prop :=
  xorb (defined m "_LITTLE_ENDIAN_") (defined m "_BIG_ENDIAN_") = true.

(** The platform has both directed rounding modes. *)
Definition exposes_both (p : platform) : Prop :=
  is_Some (fe_downward p) ∧ is_Some (fe_upward p).

(** The three markers, as present or absent. *)
Definition marker_state (m : macros) : bool * bool * bool :=
  (defined m "_LITTLE_ENDIAN_", defined m "_BIG_ENDIAN_",
   defined m "_X86_LINUX_").

(** The directives of a log that define or undefine an endianness marker. *)
Definition on_endianness (d : directive) : Prop :=
  match d with
  | Define n _ | Undef n => n = "_LITTLE_ENDIAN_" ∨ n = "_BIG_ENDIAN_"
  | _ => False
  end.

#[global] Instance on_endianness_dec d : Decision (on_endianness d).
Proof. destruct d; cbn; apply _. Defined.

Definition endianness_steps (lg : log) : list directive :=
  filter on_endianness lg.*2.

(** Every [# define] of an endianness marker finds both markers cleared. *)
Definition cleared_before_define (lg : log) : Prop :=
  ∀ m0 n body,
    (m0, Define n body) ∈ lg →
    n = "_LITTLE_ENDIAN_" ∨ n = "_BIG_ENDIAN_" →
    defined m0 "_LITTLE_ENDIAN_" = false ∧ defined m0 "_BIG_ENDIAN_" = false.

End Sysdep.

Import Sysdep.

(** ** The collection entry point [GC] *)

Module Trampoline.

Definition addr := Z.

(** What [GC] asks of its surroundings: room in its frame for the automatic
    variable [context], and the two functions it calls. *)
Variant gcE : Type → Type :=
| Auto_context : gcE addr
| Getcontext (ucp : addr) : gcE Z
| GCSI (s : Z) (EACSTACK : addr) : gcE unit.

(** [void GC(void)]: the result of [getcontext] is dropped. *)
Definition GC (p : platform) : itree gcE unit :=
  ITree.bind (ITree.trigger Auto_context) (λ context,
  ITree.bind (ITree.trigger (Getcontext context)) (λ _,
  ITree.trigger (GCSI (sizeof_Word p) context))).

(** The calls observed while the program runs. *)
Inductive call :=
| Alloc (a : addr)
| Call_getcontext (ucp : addr) (ret : Z)
| Call_GCSI (s : Z) (EACSTACK : addr).

(** The surroundings: where the frame of the next invocation puts
    [context], and what [getcontext] returns (0, or -1 on failure), both
    possibly depending on what happened so far. *)
Record machine := {
  frame : list call → addr;
  getcontext : list call → addr → Z
}.

Definition handle (env : machine)
  : gcE ~> Monads.stateT (list call) (itree void1) :=
  λ _ e past,
    match e with
    | Auto_context =>
        let a := frame env past in Ret (past ++ [Alloc a], a)
    | Getcontext ucp =>
        let r := getcontext env past ucp in
        Ret (past ++ [Call_getcontext ucp r], r)
    | GCSI s a => Ret (past ++ [Call_GCSI s a], tt)
    end.

(** One invocation of a built [GC] after the calls [past]. *)
Definition invoke (env : machine) (gc : itree gcE unit) (past : list call)
  : itree void1 (list call * unit) :=
  interp_state (handle env) gc past.

(** The address of [context] in the invocation that follows [past], and
    what [getcontext] returns there. *)
Definition context_addr (env : machine) (past : list call) : addr :=
  frame env past.
Definition getcontext_result (env : machine) (past : list call) : Z :=
  getcontext env (past ++ [Alloc (context_addr env past)])
    (context_addr env past).

Definition is_GCSI (c : call) : bool :=
  match c with Call_GCSI _ _ => true | _ => false end.

Definition GCSI_calls (cs : list call) : list call :=
  List.filter is_GCSI cs.

(** *** Building [GC.c] *)

(** The two [#include] lines of [GC.c]. *)
Definition GC_c : list directive :=
  [ Include "ucontext.h"; Include "saclib.h" ].

(** The translation unit builds when its headers are found. *)
Definition build (p : platform) : option (itree gcE unit) :=
  preprocess p GC_c ∅ ≫= λ _, Some (GC p).

(** The context-capture facility is missing on the platform, or
    [getcontext] reports failure in the invocation that follows [past]. *)
Definition capture_unavailable (p : platform) : Prop :=
  "ucontext.h" ∉ headers p.
Definition capture_fails (env : machine) (past : list call) : Prop :=
  getcontext_result env past = -1.

(** *** Several pauses

    The collector enters [GC] at every collection pause; [n] pauses in a row
    are [n] calls of [GC], one after the other. *)
Fixpoint GC_times (p : platform) (n : nat) : itree gcE unit :=
  match n with
  | O => Ret tt
  | S n' => ITree.bind (GC p) (λ _, GC_times p n')
  end.

(** The calls of one pause, given where [context] was put and what
    [getcontext] returned. *)
Definition pause_calls (p : platform) (ar : addr * Z) : list call :=
  [ Alloc ar.1; Call_getcontext ar.1 ar.2; Call_GCSI (sizeof_Word p) ar.1 ].

End Trampoline.

Import Trampoline.

(** ** Some targets *)

(** x86-64 Linux with glibc; saclib's [Word] is [int] there. *)
Definition glibc_x86_64 : platform :=
  {| headers := ["endian.h"; "bits/wordsize.h"; "fenv.h"; "ucontext.h"; "saclib.h"];
     byte_order := 1234; little_endian := 1234; wordsize := 64;
     fe_downward := Some 1024; fe_upward := Some 2048;
     sizeof_Word := 4; sizeof_pointer := 8 |}.

(** A big-endian 32-bit target whose [<fenv.h>] has [FE_DOWNWARD] only. *)
Definition big_endian_no_upward : platform :=
  {| headers := ["endian.h"; "bits/wordsize.h"; "fenv.h"; "ucontext.h"; "saclib.h"];
     byte_order := 4321; little_endian := 1234; wordsize := 32;
     fe_downward := Some 3; fe_upward := None;
     sizeof_Word := 4; sizeof_pointer := 4 |}.

(** A target with the PDP byte order and no directed rounding. *)
Definition pdp_endian : platform :=
  {| headers := ["endian.h"; "bits/wordsize.h"; "fenv.h"; "ucontext.h"; "saclib.h"];
     byte_order := 3412; little_endian := 1234; wordsize := 32;
     fe_downward := None; fe_upward := None;
     sizeof_Word := 4; sizeof_pointer := 4 |}.

(** A target without [<ucontext.h>]. *)
Definition no_ucontext : platform :=
  {| headers := ["endian.h"; "bits/wordsize.h"; "fenv.h"; "saclib.h"];
     byte_order := 1234; little_endian := 1234; wordsize := 64;
     fe_downward := Some 1024; fe_upward := Some 2048;
     sizeof_Word := 4; sizeof_pointer := 8 |}.

(** Surroundings in which [getcontext] succeeds, and in which it fails. *)
Definition capture_ok : machine :=
  {| frame := λ _, 4096; getcontext := λ _ _, 0 |}.
Definition capture_broken : machine :=
  {| frame := λ _, 4096; getcontext := λ _ _, -1 |}.

(** Translation units that come with markers of their own. *)
Definition both_markers : macros :=
  <["_LITTLE_ENDIAN_" := None]> (<["_BIG_ENDIAN_" := None]> ∅).
Definition big_marker : macros := <["_BIG_ENDIAN_" := None]> ∅.
Definition rounding_marker : macros := <["_X86_LINUX_" := None]> ∅.

Definition own_fenv : macros :=
  <["FE_DOWNWARD" := Some 1]> (<["FE_UPWARD" := Some 2]> ∅).


(** * Facts *)

Lemma include_shipped p h m :
  h ∈ headers p → include p h m = Some (define_all (header_macros p h) m).
Proof. intros H. unfold include. by rewrite bool_decide_eq_true_2. Qed.

Lemma include_missing p h m : h ∉ headers p → include p h m = None.
Proof. intros H. unfold include. by rewrite bool_decide_eq_false_2. Qed.

(** ** The preprocessor: structural facts *)

Section CppFacts.
Context (p : platform).

Lemma exec_If c then_ else_ m :
  exec p (If c then_ else_) m =
  v ← eval m c; exec_list p (if bool_decide (v = 0) then else_ else then_) m.
Proof.
  cbn [exec]. destruct (eval m c) as [v|]; [cbn | done].
  assert (∀ ds m0,
    (fix group (ds : list directive) (m : macros) : option (log * macros) :=
       match ds with
       | [] => Some ([], m)
       | d' :: ds' =>
           r1 ← exec p d' m; r2 ← group ds' r1.2; Some (r1.1 ++ r2.1, r2.2)
       end) ds m0 = exec_list p ds m0) as Hgroup.
  { induction ds as [|d ds IH]; intros m0; [done | cbn].
    destruct (exec p d m0) as [r1|]; [cbn | done]. by rewrite IH. }
  case_bool_decide; apply Hgroup.
Qed.

Lemma exec_list_app ds1 ds2 m :
  exec_list p (ds1 ++ ds2) m =
  r1 ← exec_list p ds1 m; r2 ← exec_list p ds2 r1.2; Some (r1.1 ++ r2.1, r2.2).
Proof.
  revert m. induction ds1 as [|d ds1 IH]; intros m; cbn.
  - destruct (exec_list p ds2 m) as [[l2 m2]|]; done.
  - destruct (exec p d m) as [[l1 m1]|]; [cbn | done].
    rewrite IH. destruct (exec_list p ds1 m1) as [[l1' m1']|]; [cbn | done].
    destruct (exec_list p ds2 m1') as [[l2 m2]|]; [cbn | done].
    by rewrite app_assoc.
Qed.

Lemma preprocess_app ds1 ds2 m :
  preprocess p (ds1 ++ ds2) m = preprocess p ds1 m ≫= preprocess p ds2.
Proof.
  unfold preprocess. rewrite exec_list_app.
  destruct (exec_list p ds1 m) as [[l1 m1]|]; [cbn | done].
  destruct (exec_list p ds2 m1) as [[l2 m2]|]; done.
Qed.

End CppFacts.

(** ** The capability header, part by part *)

Section SysdepFacts.
Context (p : platform).

Lemma byte_order_check_exec (m : macros) bo le :
  m !! "__BYTE_ORDER" = Some (Some bo) →
  m !! "__LITTLE_ENDIAN" = Some (Some le) →
  exec p byte_order_check m =
  Some (if bool_decide (bo = le)
        then ([(m, Define "_LITTLE_ENDIAN_" None);
               (<["_LITTLE_ENDIAN_" := None]> m, Undef "_BIG_ENDIAN_")],
              delete "_BIG_ENDIAN_" (<["_LITTLE_ENDIAN_" := None]> m))
        else ([(m, Undef "_LITTLE_ENDIAN_");
               (delete "_LITTLE_ENDIAN_" m, Define "_BIG_ENDIAN_" None)],
              <["_BIG_ENDIAN_" := None]> (delete "_LITTLE_ENDIAN_" m))).
Proof.
  intros Hbo Hle. unfold byte_order_check. rewrite exec_If.
  cbn [eval]. rewrite Hbo, Hle. cbn.
  by destruct (bool_decide (bo = le)).
Qed.

Lemma rounding_check_exec (m : macros) :
  exec p rounding_check m =
  Some (if defined m "FE_DOWNWARD" && defined m "FE_UPWARD"
        then ([(m, Define "_X86_LINUX_" None)], <["_X86_LINUX_" := None]> m)
        else ([], m)).
Proof.
  unfold rounding_check. rewrite exec_If. cbn [eval]. cbn.
  by destruct (defined m "FE_DOWNWARD"), (defined m "FE_UPWARD").
Qed.

Lemma endian_h_eq m :
  endian_h p m =
  <["__BYTE_ORDER" := Some (byte_order p)]>
    (<["__LITTLE_ENDIAN" := Some (little_endian p)]> m).
Proof. done. Qed.

Lemma wordsize_h_eq m : wordsize_h p m = <["__WORDSIZE" := Some (wordsize p)]> m.
Proof. done. Qed.

Lemma fenv_h_lookup m i :
  fenv_h p m !! i =
  if bool_decide (i = "FE_UPWARD") then
    match fe_upward p with Some z => Some (Some z) | None => m !! i end
  else if bool_decide (i = "FE_DOWNWARD") then
    match fe_downward p with Some z => Some (Some z) | None => m !! i end
  else m !! i.
Proof.
  unfold fenv_h, header_macros, define_all.
  rewrite !bool_decide_eq_false_2, bool_decide_eq_true_2 by done.
  destruct (fe_downward p), (fe_upward p); cbn [app foldl fst snd];
    rewrite ?lookup_insert; repeat case_decide; repeat case_bool_decide;
    subst; done.
Qed.

Lemma sysdep_h_exec m :
  shipped p → exec_list p sysdep_h m = Some (sysdep_h_run p m).
Proof.
  intros (He & Hw & Hf). unfold sysdep_h, sysdep_h_run.
  cbn [exec_list]. cbn [exec].
  rewrite (include_shipped _ _ _ He). cbn [mbind option_bind fst snd].
  rewrite (include_shipped _ _ _ Hw). cbn [mbind option_bind fst snd].
  fold (endian_h p m). fold (wordsize_h p (endian_h p m)).
  rewrite (byte_order_check_exec _ (byte_order p) (little_endian p)).
  2,3: by rewrite wordsize_h_eq, endian_h_eq; simplify_map_eq.
  fold (byte_order_branch p (wordsize_h p (endian_h p m))).
  cbn [mbind option_bind fst snd].
  rewrite (include_shipped _ _ _ Hf). cbn [mbind option_bind fst snd].
  fold (fenv_h p (byte_order_branch p (wordsize_h p (endian_h p m))).2).
  rewrite rounding_check_exec.
  fold (rounding_branch (fenv_h p (byte_order_branch p (wordsize_h p (endian_h p m))).2)).
  cbn [mbind option_bind fst snd app]. by rewrite app_nil_r.
Qed.

Lemma sysdep_h_fails m : ¬ shipped p → exec_list p sysdep_h m = None.
Proof.
  intros Hno. unfold sysdep_h. cbn [exec_list exec].
  destruct (decide ("endian.h" ∈ headers p)) as [He|He].
  2: { by rewrite include_missing. }
  rewrite (include_shipped _ _ _ He). cbn [mbind option_bind fst snd].
  destruct (decide ("bits/wordsize.h" ∈ headers p)) as [Hw|Hw].
  2: { by rewrite include_missing. }
  rewrite (include_shipped _ _ _ Hw). cbn [mbind option_bind fst snd].
  fold (endian_h p m). fold (wordsize_h p (endian_h p m)).
  rewrite (byte_order_check_exec _ (byte_order p) (little_endian p)).
  2,3: by rewrite wordsize_h_eq, endian_h_eq; simplify_map_eq.
  cbn [mbind option_bind fst snd].
  destruct (decide ("fenv.h" ∈ headers p)) as [Hf|Hf].
  { destruct Hno. by repeat split. }
  by rewrite include_missing.
Qed.

(** *** The final table, key by key *)

Lemma byte_order_branch_lookup m i :
  (byte_order_branch p m).2 !! i =
  if bool_decide (i = "_LITTLE_ENDIAN_") then
    if bool_decide (byte_order p = little_endian p) then Some None else None
  else if bool_decide (i = "_BIG_ENDIAN_") then
    if bool_decide (byte_order p = little_endian p) then None else Some None
  else m !! i.
Proof.
  unfold byte_order_branch.
  destruct (bool_decide (byte_order p = little_endian p)); cbn [snd];
    rewrite ?lookup_insert, ?lookup_delete, ?lookup_insert;
    repeat case_decide; repeat case_bool_decide; subst; done.
Qed.

Lemma rounding_branch_lookup m i :
  (rounding_branch m).2 !! i =
  if bool_decide (i = "_X86_LINUX_") then
    if defined m "FE_DOWNWARD" && defined m "FE_UPWARD" then Some None
    else m !! i
  else m !! i.
Proof.
  unfold rounding_branch.
  destruct (defined m "FE_DOWNWARD" && defined m "FE_UPWARD"); cbn [snd];
    rewrite ?lookup_insert; repeat case_decide; repeat case_bool_decide;
    subst; done.
Qed.

(** Each part of the header leaves the macros it does not name alone. *)
Lemma endian_h_other m i :
  i ≠ "__BYTE_ORDER" → i ≠ "__LITTLE_ENDIAN" → endian_h p m !! i = m !! i.
Proof. intros. rewrite endian_h_eq. by rewrite !lookup_insert_ne. Qed.

Lemma wordsize_h_other m i : i ≠ "__WORDSIZE" → wordsize_h p m !! i = m !! i.
Proof. intros. rewrite wordsize_h_eq. by rewrite lookup_insert_ne. Qed.

Lemma byte_order_branch_other m i :
  i ≠ "_LITTLE_ENDIAN_" → i ≠ "_BIG_ENDIAN_" →
  (byte_order_branch p m).2 !! i = m !! i.
Proof.
  intros. rewrite byte_order_branch_lookup.
  by rewrite !bool_decide_eq_false_2.
Qed.

Lemma fenv_h_other m i :
  i ≠ "FE_UPWARD" → i ≠ "FE_DOWNWARD" → fenv_h p m !! i = m !! i.
Proof. intros. rewrite fenv_h_lookup. by rewrite !bool_decide_eq_false_2. Qed.

Lemma rounding_branch_other m i :
  i ≠ "_X86_LINUX_" → (rounding_branch m).2 !! i = m !! i.
Proof.
  intros. rewrite rounding_branch_lookup. by rewrite bool_decide_eq_false_2.
Qed.

Lemma at_fenv_h_other m i :
  i ≠ "_LITTLE_ENDIAN_" → i ≠ "_BIG_ENDIAN_" → i ≠ "__WORDSIZE" →
  i ≠ "__BYTE_ORDER" → i ≠ "__LITTLE_ENDIAN" →
  at_fenv_h p m !! i = m !! i.
Proof.
  intros. unfold at_fenv_h, at_byte_order_check.
  rewrite byte_order_branch_other, wordsize_h_other, endian_h_other; done.
Qed.

Lemma at_rounding_check_FE_DOWNWARD m :
  defined (at_rounding_check p m) "FE_DOWNWARD" =
  sees m "FE_DOWNWARD" (fe_downward p).
Proof.
  unfold defined, sees, at_rounding_check. rewrite fenv_h_lookup.
  rewrite (bool_decide_eq_false_2 ("FE_DOWNWARD" = "FE_UPWARD")) by done.
  rewrite (bool_decide_eq_true_2 ("FE_DOWNWARD" = "FE_DOWNWARD")) by done.
  rewrite at_fenv_h_other by done.
  destruct (fe_downward p) as [z|]; [ | done].
  by rewrite !bool_decide_eq_true_2.
Qed.

Lemma at_rounding_check_FE_UPWARD m :
  defined (at_rounding_check p m) "FE_UPWARD" =
  sees m "FE_UPWARD" (fe_upward p).
Proof.
  unfold defined, sees, at_rounding_check. rewrite fenv_h_lookup.
  rewrite (bool_decide_eq_true_2 ("FE_UPWARD" = "FE_UPWARD")) by done.
  rewrite at_fenv_h_other by done.
  destruct (fe_upward p) as [z|]; [ | done].
  by rewrite !bool_decide_eq_true_2.
Qed.

Lemma sysdep_h_run_final m :
  (sysdep_h_run p m).2 = (rounding_branch (at_rounding_check p m)).2.
Proof. done. Qed.

Lemma sysdep_h_X86_LINUX m :
  (sysdep_h_run p m).2 !! "_X86_LINUX_" =
  if sees_both p m then Some None else m !! "_X86_LINUX_".
Proof.
  rewrite sysdep_h_run_final, rounding_branch_lookup.
  rewrite bool_decide_eq_true_2 by done.
  rewrite at_rounding_check_FE_DOWNWARD, at_rounding_check_FE_UPWARD.
  fold (sees_both p m). destruct (sees_both p m); [done | ].
  unfold at_rounding_check. rewrite fenv_h_other by done.
  by rewrite at_fenv_h_other.
Qed.

Lemma sysdep_h_LITTLE_ENDIAN m :
  (sysdep_h_run p m).2 !! "_LITTLE_ENDIAN_" =
  if bool_decide (byte_order p = little_endian p) then Some None else None.
Proof.
  rewrite sysdep_h_run_final, rounding_branch_other by done.
  unfold at_rounding_check. rewrite fenv_h_other by done.
  unfold at_fenv_h. rewrite byte_order_branch_lookup.
  by rewrite bool_decide_eq_true_2.
Qed.

Lemma sysdep_h_BIG_ENDIAN m :
  (sysdep_h_run p m).2 !! "_BIG_ENDIAN_" =
  if bool_decide (byte_order p = little_endian p) then None else Some None.
Proof.
  rewrite sysdep_h_run_final, rounding_branch_other by done.
  unfold at_rounding_check. rewrite fenv_h_other by done.
  unfold at_fenv_h. rewrite byte_order_branch_lookup.
  rewrite bool_decide_eq_false_2 by done.
  by rewrite bool_decide_eq_true_2.
Qed.

Lemma sysdep_h_FE_DOWNWARD m :
  (sysdep_h_run p m).2 !! "FE_DOWNWARD" =
  match fe_downward p with
  | Some z => Some (Some z)
  | None => m !! "FE_DOWNWARD"
  end.
Proof.
  rewrite sysdep_h_run_final, rounding_branch_other by done.
  unfold at_rounding_check. rewrite fenv_h_lookup.
  rewrite (bool_decide_eq_false_2 ("FE_DOWNWARD" = "FE_UPWARD")) by done.
  rewrite (bool_decide_eq_true_2 ("FE_DOWNWARD" = "FE_DOWNWARD")) by done.
  by rewrite at_fenv_h_other.
Qed.

Lemma sysdep_h_FE_UPWARD m :
  (sysdep_h_run p m).2 !! "FE_UPWARD" =
  match fe_upward p with
  | Some z => Some (Some z)
  | None => m !! "FE_UPWARD"
  end.
Proof.
  rewrite sysdep_h_run_final, rounding_branch_other by done.
  unfold at_rounding_check. rewrite fenv_h_lookup.
  rewrite (bool_decide_eq_true_2 ("FE_UPWARD" = "FE_UPWARD")) by done.
  by rewrite at_fenv_h_other.
Qed.

Lemma sysdep_h_endian_h m :
  (sysdep_h_run p m).2 !! "__BYTE_ORDER" = Some (Some (byte_order p)) ∧
  (sysdep_h_run p m).2 !! "__LITTLE_ENDIAN" = Some (Some (little_endian p)) ∧
  (sysdep_h_run p m).2 !! "__WORDSIZE" = Some (Some (wordsize p)).
Proof.
  rewrite sysdep_h_run_final, !rounding_branch_other by done.
  unfold at_rounding_check. rewrite !fenv_h_other by done.
  unfold at_fenv_h. rewrite !byte_order_branch_other by done.
  unfold at_byte_order_check. rewrite wordsize_h_eq, endian_h_eq.
  by simplify_map_eq.
Qed.

Lemma sysdep_h_other m i : i ∉ named → (sysdep_h_run p m).2 !! i = m !! i.
Proof.
  unfold named. rewrite !not_elem_of_cons.
  intros (? & ? & ? & ? & ? & ? & ? & ? & _).
  rewrite sysdep_h_run_final, rounding_branch_other by done.
  unfold at_rounding_check. rewrite fenv_h_other by done.
  by rewrite at_fenv_h_other.
Qed.

Lemma sysdep_h_sees_again m n v :
  (sysdep_h_run p m).2 !! n = match v with Some z => Some (Some z) | None => m !! n end →
  sees (sysdep_h_run p m).2 n v = sees m n v.
Proof.
  intros H. unfold sees, defined. rewrite H.
  destruct v as [z|]; [ | done].
  by rewrite (bool_decide_eq_true_2 (is_Some (Some z))).
Qed.

(** A second inclusion finds the table the first one left and leaves it as
    it is. *)
Lemma sysdep_h_run_idemp m :
  (sysdep_h_run p (sysdep_h_run p m).2).2 = (sysdep_h_run p m).2.
Proof.
  assert (sees_both p (sysdep_h_run p m).2 = sees_both p m) as Hsees.
  { unfold sees_both.
    rewrite (sysdep_h_sees_again m _ _ (sysdep_h_FE_DOWNWARD m)).
    by rewrite (sysdep_h_sees_again m _ _ (sysdep_h_FE_UPWARD m)). }
  apply map_eq. intros i.
  destruct (decide (i ∈ named)) as [Hi|Hi].
  2: { by rewrite !sysdep_h_other. }
  unfold named in Hi. rewrite !elem_of_cons in Hi. rewrite elem_of_nil in Hi.
  destruct (sysdep_h_endian_h m) as (Hbo & Hle & Hws).
  destruct (sysdep_h_endian_h (sysdep_h_run p m).2) as (Hbo' & Hle' & Hws').
  destruct Hi as [->|[->|[->|[->|[->|[->|[->|[->|[]]]]]]]]].
  - by rewrite Hbo, Hbo'.
  - by rewrite Hle, Hle'.
  - by rewrite Hws, Hws'.
  - by rewrite !sysdep_h_LITTLE_ENDIAN.
  - by rewrite !sysdep_h_BIG_ENDIAN.
  - rewrite sysdep_h_FE_DOWNWARD.
    destruct (fe_downward p) eqn:E; [ | done].
    by rewrite sysdep_h_FE_DOWNWARD, E.
  - rewrite sysdep_h_FE_UPWARD.
    destruct (fe_upward p) eqn:E; [ | done].
    by rewrite sysdep_h_FE_UPWARD, E.
  - rewrite sysdep_h_X86_LINUX, Hsees.
    destruct (sees_both p m) eqn:E; rewrite sysdep_h_X86_LINUX, E; done.
Qed.

End SysdepFacts.

(** ** One inclusion and many *)

Section InclusionFacts.
Context (p : platform).

Lemma defined_true (m : macros) n : defined m n = true ↔ is_Some (m !! n).
Proof. unfold defined. apply bool_decide_eq_true. Qed.

Lemma defined_false (m : macros) n : defined m n = false ↔ m !! n = None.
Proof.
  unfold defined. rewrite bool_decide_eq_false, eq_None_not_Some. done.
Qed.

Lemma preprocess_sysdep_h m :
  preprocess p sysdep_h m =
  if decide (shipped p) then Some (sysdep_h_run p m).2 else None.
Proof.
  unfold preprocess. case_decide.
  - by rewrite sysdep_h_exec.
  - by rewrite sysdep_h_fails.
Qed.

Lemma preprocess_twice m :
  preprocess p sysdep_h m ≫= preprocess p sysdep_h = preprocess p sysdep_h m.
Proof.
  rewrite preprocess_sysdep_h. case_decide; [cbn [mbind option_bind] | done].
  rewrite preprocess_sysdep_h. rewrite decide_True by done.
  by rewrite sysdep_h_run_idemp.
Qed.

Lemma included_S n : included (S n) = sysdep_h ++ included n.
Proof. done. Qed.

Lemma preprocess_included n m :
  preprocess p (included (S n)) m = preprocess p sysdep_h m.
Proof.
  revert m. induction n as [|n IH]; intros m.
  - unfold included. cbn [replicate mjoin list_join]. by rewrite app_nil_r.
  - rewrite included_S, preprocess_app.
    transitivity (preprocess p sysdep_h m ≫= preprocess p sysdep_h).
    + destruct (preprocess p sysdep_h m) as [m1|]; [ | done]. apply IH.
    + apply preprocess_twice.
Qed.

(** The directives one inclusion executes. *)
Lemma sysdep_h_run_directives m :
  (sysdep_h_run p m).1.*2 =
  [ Include "endian.h"; Include "bits/wordsize.h" ] ++
  (if bool_decide (byte_order p = little_endian p)
   then [ Define "_LITTLE_ENDIAN_" None; Undef "_BIG_ENDIAN_" ]
   else [ Undef "_LITTLE_ENDIAN_"; Define "_BIG_ENDIAN_" None ]) ++
  Include "fenv.h" ::
  (if sees_both p m then [ Define "_X86_LINUX_" None ] else []).
Proof.
  unfold sysdep_h_run. cbn [fst]. cbv zeta.
  rewrite !fmap_cons, fmap_app, fmap_cons. cbn [snd app].
  f_equal. f_equal.
  unfold rounding_branch.
  rewrite at_rounding_check_FE_DOWNWARD, at_rounding_check_FE_UPWARD.
  fold (sees_both p m).
  unfold byte_order_branch.
  by destruct (bool_decide (byte_order p = little_endian p)), (sees_both p m).
Qed.

Lemma sysdep_h_one_endianness m : one_endianness (sysdep_h_run p m).2.
Proof.
  unfold one_endianness, defined.
  rewrite sysdep_h_LITTLE_ENDIAN, sysdep_h_BIG_ENDIAN.
  by destruct (bool_decide (byte_order p = little_endian p)).
Qed.

End InclusionFacts.

(** Membership in an explicit list of directives. *)
Ltac in_list :=
  cbn [app]; rewrite ?elem_of_cons; auto 12.
Ltac not_in_list :=
  cbn [app]; rewrite ?not_elem_of_cons; repeat split; try discriminate;
  apply not_elem_of_nil.

Lemma glibc_x86_64_shipped : shipped glibc_x86_64.
Proof. compute_done. Qed.

Lemma big_endian_no_upward_shipped : shipped big_endian_no_upward.
Proof. compute_done. Qed.

(** ** The header at work *)

Example glibc_x86_64_markers :
  marker_state <$> preprocess glibc_x86_64 sysdep_h ∅ = Some (true, false, true).
Proof. by vm_compute. Qed.

Example big_endian_no_upward_markers :
  marker_state <$> preprocess big_endian_no_upward sysdep_h both_markers =
  Some (false, true, false).
Proof. by vm_compute. Qed.

Example pdp_endian_markers :
  marker_state <$> preprocess pdp_endian (included 3) ∅ = Some (false, true, false).
Proof. by vm_compute. Qed.

Example glibc_x86_64_directives :
  (λ r : log * macros, r.1.*2) <$> exec_list glibc_x86_64 sysdep_h ∅ =
  Some [ Include "endian.h"; Include "bits/wordsize.h";
         Define "_LITTLE_ENDIAN_" None; Undef "_BIG_ENDIAN_";
         Include "fenv.h"; Define "_X86_LINUX_" None ].
Proof. by vm_compute. Qed.

(** * The capability header: claims *)

(** C3.  After one or more inclusions of the capability header, from any
    macro table, exactly one of [_LITTLE_ENDIAN_] and [_BIG_ENDIAN_] is
    defined: whenever the inclusions go through the final table has exactly
    one, and they do go through on a platform that ships the system
    headers. *)
Theorem endianness_exactly_one p n m :
  (1 ≤ n)%nat →
  (shipped p → is_Some (preprocess p (included n) m)) ∧
  (∀ m', preprocess p (included n) m = Some m' → one_endianness m').
Proof.
  intros Hn. destruct n as [|n]; [lia | ].
  rewrite preprocess_included, preprocess_sysdep_h. split.
  - intros Hp. by rewrite decide_True.
  - intros m'. case_decide; [ | done].
    intros [= <-]. apply sysdep_h_one_endianness.
Qed.

Lemma endianness_exactly_one_witness :
  (1 ≤ 2)%nat ∧
  (shipped glibc_x86_64 →
   is_Some (preprocess glibc_x86_64 (included 2) both_markers)) ∧
  (∀ m', preprocess glibc_x86_64 (included 2) both_markers = Some m' →
         one_endianness m').
Proof.
  split; [lia | apply (endianness_exactly_one glibc_x86_64 2 both_markers); lia].
Defined.

(** C6.  Including the capability header twice or more leaves the same
    macro table, and so the same three markers, as including it once. *)
Theorem reinclusion_same_state p n m :
  (2 ≤ n)%nat →
  preprocess p (included n) m = preprocess p sysdep_h m ∧
  marker_state <$> preprocess p (included n) m =
  marker_state <$> preprocess p sysdep_h m ∧
  (shipped p → is_Some (preprocess p sysdep_h m)).
Proof.
  intros Hn. destruct n as [|n]; [lia | ].
  rewrite preprocess_included. split; [done | split; [done | ]].
  intros Hp. rewrite preprocess_sysdep_h. by rewrite decide_True.
Qed.

Lemma reinclusion_same_state_witness :
  (2 ≤ 3)%nat ∧
  preprocess glibc_x86_64 (included 3) big_marker =
  preprocess glibc_x86_64 sysdep_h big_marker ∧
  marker_state <$> preprocess glibc_x86_64 (included 3) big_marker =
  marker_state <$> preprocess glibc_x86_64 sysdep_h big_marker ∧
  (shipped glibc_x86_64 →
   is_Some (preprocess glibc_x86_64 sysdep_h big_marker)).
Proof.
  split; [lia | apply (reinclusion_same_state glibc_x86_64 3 big_marker); lia].
Defined.

(** C9.  The byte-order check has two outcomes only: whenever the platform's
    byte order differs from the little-endian constant (the PDP order
    included) the header takes the [#else] branch, defines [_BIG_ENDIAN_]
    and leaves [_LITTLE_ENDIAN_] undefined. *)
Theorem not_little_is_big p m :
  shipped p →
  byte_order p ≠ little_endian p →
  ∃ lg m',
    exec_list p sysdep_h m = Some (lg, m') ∧
    Define "_BIG_ENDIAN_" None ∈ lg.*2 ∧
    defined m' "_BIG_ENDIAN_" = true ∧
    defined m' "_LITTLE_ENDIAN_" = false.
Proof.
  intros Hp Hne. exists (sysdep_h_run p m).1, (sysdep_h_run p m).2.
  split; [ | split; [ | split]].
  - rewrite sysdep_h_exec by done. by destruct (sysdep_h_run p m).
  - rewrite sysdep_h_run_directives.
    rewrite (bool_decide_eq_false_2 (byte_order p = little_endian p)) by done.
    in_list.
  - apply defined_true. rewrite sysdep_h_BIG_ENDIAN.
    by rewrite bool_decide_eq_false_2.
  - apply defined_false. rewrite sysdep_h_LITTLE_ENDIAN.
    by rewrite bool_decide_eq_false_2.
Qed.

Lemma not_little_is_big_witness :
  shipped pdp_endian ∧
  byte_order pdp_endian ≠ little_endian pdp_endian ∧
  ∃ lg m',
    exec_list pdp_endian sysdep_h both_markers = Some (lg, m') ∧
    Define "_BIG_ENDIAN_" None ∈ lg.*2 ∧
    defined m' "_BIG_ENDIAN_" = true ∧
    defined m' "_LITTLE_ENDIAN_" = false.
Proof.
  split; [compute_done | ].
  split; [by vm_compute | ].
  apply (not_little_is_big pdp_endian both_markers);
    [compute_done | by vm_compute].
Defined.

(** C10.  The header has no [# undef _X86_LINUX_]: a marker that is defined
    before the inclusion is still defined after it, also on a platform that
    lacks a directed rounding mode. *)
Theorem rounding_marker_kept p m :
  shipped p →
  defined m "_X86_LINUX_" = true →
  ∃ lg m',
    exec_list p sysdep_h m = Some (lg, m') ∧
    (Undef "_X86_LINUX_" ∉ lg.*2) ∧
    defined m' "_X86_LINUX_" = true.
Proof.
  intros Hp Hm. exists (sysdep_h_run p m).1, (sysdep_h_run p m).2.
  split; [ | split].
  - rewrite sysdep_h_exec by done. by destruct (sysdep_h_run p m).
  - rewrite sysdep_h_run_directives.
    destruct (bool_decide (byte_order p = little_endian p)), (sees_both p m);
      not_in_list.
  - apply defined_true. rewrite sysdep_h_X86_LINUX.
    destruct (sees_both p m); [done | ]. by apply defined_true.
Qed.

Lemma rounding_marker_kept_witness :
  shipped big_endian_no_upward ∧
  defined rounding_marker "_X86_LINUX_" = true ∧
  ∃ lg m',
    exec_list big_endian_no_upward sysdep_h rounding_marker = Some (lg, m') ∧
    (Undef "_X86_LINUX_" ∉ lg.*2) ∧
    defined m' "_X86_LINUX_" = true.
Proof.
  split; [compute_done | ].
  split; [by vm_compute | ].
  apply (rounding_marker_kept big_endian_no_upward rounding_marker);
    [compute_done | by vm_compute].
Defined.

(** C2, as stated, fails: on a platform without [FE_UPWARD], a translation
    unit that comes with [_X86_LINUX_] already defined still has it after
    the inclusion. *)
Lemma rounding_marker_iff_counterexample :
  ∃ m',
    preprocess big_endian_no_upward sysdep_h rounding_marker = Some m' ∧
    ¬ (defined m' "_X86_LINUX_" = true ↔ exposes_both big_endian_no_upward).
Proof.
  eexists. split.
  - rewrite preprocess_sysdep_h.
    rewrite decide_True by exact big_endian_no_upward_shipped. reflexivity.
  - intros [Hdef _].
    assert (exposes_both big_endian_no_upward) as [_ [z Hz]].
    { apply Hdef. by vm_compute. }
    discriminate Hz.
Qed.

(** C2, amended.  When [_X86_LINUX_] is not defined before the inclusion
    (and the unit has no [FE_DOWNWARD] or [FE_UPWARD] of its own), the marker
    is defined after the inclusion if and only if the platform exposes both
    directed rounding modes. *)
Theorem rounding_marker_iff p m :
  shipped p →
  defined m "_X86_LINUX_" = false →
  defined m "FE_DOWNWARD" = false →
  defined m "FE_UPWARD" = false →
  ∃ m',
    preprocess p sysdep_h m = Some m' ∧
    (defined m' "_X86_LINUX_" = true ↔ exposes_both p).
Proof.
  intros Hp Hx Hd Hu. exists (sysdep_h_run p m).2. split.
  - rewrite preprocess_sysdep_h. by rewrite decide_True.
  - rewrite defined_true, sysdep_h_X86_LINUX.
    unfold sees_both, sees, exposes_both. rewrite Hd, Hu, !orb_false_r.
    apply defined_false in Hx.
    destruct (fe_downward p) as [d|], (fe_upward p) as [u|]; cbn; rewrite ?Hx.
    + split; [eauto | by eexists].
    + split; [by intros [? ?] | by intros [_ [? ?]]].
    + split; [by intros [? ?] | by intros [[? ?] _]].
    + split; [by intros [? ?] | by intros [[? ?] _]].
Qed.

Lemma rounding_marker_iff_witness :
  shipped glibc_x86_64 ∧
  defined (∅ : macros) "_X86_LINUX_" = false ∧
  defined (∅ : macros) "FE_DOWNWARD" = false ∧
  defined (∅ : macros) "FE_UPWARD" = false ∧
  ∃ m',
    preprocess glibc_x86_64 sysdep_h ∅ = Some m' ∧
    (defined m' "_X86_LINUX_" = true ↔ exposes_both glibc_x86_64).
Proof.
  split; [compute_done | ].
  do 3 (split; [by vm_compute | ]).
  apply (rounding_marker_iff glibc_x86_64 ∅);
    [compute_done | by vm_compute ..].
Defined.

(** C4, as stated, fails: on a little-endian platform the header defines
    [_LITTLE_ENDIAN_] first and clears [_BIG_ENDIAN_] after, so the
    [# define] finds an earlier [_BIG_ENDIAN_] still in place. *)
Lemma cleared_before_define_counterexample :
  ∃ lg m',
    exec_list glibc_x86_64 sysdep_h big_marker = Some (lg, m') ∧
    ¬ cleared_before_define lg.
Proof.
  exists (sysdep_h_run glibc_x86_64 big_marker).1,
         (sysdep_h_run glibc_x86_64 big_marker).2.
  split.
  - rewrite sysdep_h_exec by exact glibc_x86_64_shipped.
    by destruct (sysdep_h_run glibc_x86_64 big_marker).
  - intros Hclaim.
    destruct (Hclaim (at_byte_order_check glibc_x86_64 big_marker)
                "_LITTLE_ENDIAN_" None) as [_ Hbig].
    + do 2 apply list_elem_of_further. apply list_elem_of_here.
    + by left.
    + by vm_compute in Hbig.
Qed.

(** C4, amended.  The byte-order check runs the two directives of one
    branch: on a little-endian platform [# define _LITTLE_ENDIAN_] and then
    [# undef _BIG_ENDIAN_], otherwise [# undef _LITTLE_ENDIAN_] and then
    [# define _BIG_ENDIAN_].  The marker of the other byte order is cleared,
    the chosen one is defined over whatever it was, and the inclusion ends
    with exactly the chosen marker, whatever the table was before. *)
Theorem endianness_steps_of_branch p m :
  shipped p →
  ∃ lg m',
    exec_list p sysdep_h m = Some (lg, m') ∧
    endianness_steps lg =
      (if bool_decide (byte_order p = little_endian p)
       then [ Define "_LITTLE_ENDIAN_" None; Undef "_BIG_ENDIAN_" ]
       else [ Undef "_LITTLE_ENDIAN_"; Define "_BIG_ENDIAN_" None ]) ∧
    defined m' "_LITTLE_ENDIAN_" = bool_decide (byte_order p = little_endian p) ∧
    defined m' "_BIG_ENDIAN_" = negb (bool_decide (byte_order p = little_endian p)).
Proof.
  intros Hp. exists (sysdep_h_run p m).1, (sysdep_h_run p m).2.
  split; [ | split; [ | split]].
  - rewrite sysdep_h_exec by done. by destruct (sysdep_h_run p m).
  - unfold endianness_steps. rewrite sysdep_h_run_directives.
    by destruct (bool_decide (byte_order p = little_endian p)), (sees_both p m).
  - unfold defined. rewrite sysdep_h_LITTLE_ENDIAN.
    by destruct (bool_decide (byte_order p = little_endian p)).
  - unfold defined. rewrite sysdep_h_BIG_ENDIAN.
    by destruct (bool_decide (byte_order p = little_endian p)).
Qed.

Lemma endianness_steps_of_branch_witness :
  shipped glibc_x86_64 ∧
  ∃ lg m',
    exec_list glibc_x86_64 sysdep_h big_marker = Some (lg, m') ∧
    endianness_steps lg =
      (if bool_decide (byte_order glibc_x86_64 = little_endian glibc_x86_64)
       then [ Define "_LITTLE_ENDIAN_" None; Undef "_BIG_ENDIAN_" ]
       else [ Undef "_LITTLE_ENDIAN_"; Define "_BIG_ENDIAN_" None ]) ∧
    defined m' "_LITTLE_ENDIAN_" =
      bool_decide (byte_order glibc_x86_64 = little_endian glibc_x86_64) ∧
    defined m' "_BIG_ENDIAN_" =
      negb (bool_decide (byte_order glibc_x86_64 = little_endian glibc_x86_64)).
Proof.
  split; [compute_done | ].
  apply (endianness_steps_of_branch glibc_x86_64 big_marker).
  compute_done.
Defined.

(** * The collection entry point: facts *)

Section TrampolineFacts.
Context (env : machine) (p : platform).

(** One invocation: room for [context], [getcontext] on it, [GCSI] on it,
    and a plain return. *)
Lemma GC_invoke past :
  eutt eq (invoke env (GC p) past)
    (Ret (past ++ [ Alloc (context_addr env past);
                    Call_getcontext (context_addr env past)
                      (getcontext_result env past);
                    Call_GCSI (sizeof_Word p) (context_addr env past) ],
          tt)).
Proof.
  unfold invoke, GC, getcontext_result, context_addr.
  rewrite interp_state_bind, interp_state_trigger. cbn.
  rewrite bind_ret_l. cbn.
  rewrite interp_state_bind, interp_state_trigger. cbn.
  rewrite bind_ret_l. cbn.
  rewrite interp_state_trigger. cbn.
  rewrite <- !app_assoc. cbn. reflexivity.
Qed.

(** A returned run has one result. *)
Lemma invoke_result gc past (r1 r2 : list call * unit) :
  eutt eq (invoke env gc past) (Ret r1) →
  eutt eq (invoke env gc past) (Ret r2) →
  r1 = r2.
Proof.
  intros H1 H2. rewrite H1 in H2. by apply eutt_inv_Ret in H2.
Qed.

(** [GC.c] builds exactly when both of its headers are found. *)
Lemma build_Some gc :
  build p = Some gc →
  "ucontext.h" ∈ headers p ∧ "saclib.h" ∈ headers p ∧ gc = GC p.
Proof.
  unfold build, preprocess, GC_c. cbn [exec_list exec].
  destruct (decide ("ucontext.h" ∈ headers p)) as [Hu|Hu].
  2: { by rewrite include_missing. }
  rewrite (include_shipped _ _ _ Hu). cbn [mbind option_bind fst snd].
  destruct (decide ("saclib.h" ∈ headers p)) as [Hs|Hs].
  2: { by rewrite include_missing. }
  rewrite (include_shipped _ _ _ Hs). cbn. by intros [= <-].
Qed.

Lemma build_found :
  "ucontext.h" ∈ headers p → "saclib.h" ∈ headers p → build p = Some (GC p).
Proof.
  intros Hu Hs. unfold build, preprocess, GC_c. cbn [exec_list exec].
  rewrite (include_shipped _ _ _ Hu). cbn [mbind option_bind fst snd].
  by rewrite (include_shipped _ _ _ Hs).
Qed.

End TrampolineFacts.

Lemma glibc_x86_64_build : build glibc_x86_64 = Some (GC glibc_x86_64).
Proof.
  apply build_found; cbn [headers glibc_x86_64]; in_list.
Qed.

Example no_ucontext_build : build no_ucontext = None.
Proof. reflexivity. Qed.

(** * The collection entry point: claims *)

(** C1, as stated, fails in its second half: on x86-64 Linux, where [Word]
    is [int], [GCSI] is called with 4 while a pointer has 8 bytes. *)
Lemma GCSI_word_size_counterexample :
  ∃ cs,
    eutt eq (invoke capture_ok (GC glibc_x86_64) []) (Ret (cs, tt)) ∧
    ∃ s a, Call_GCSI s a ∈ cs ∧ s ≠ sizeof_pointer glibc_x86_64.
Proof.
  eexists. split; [apply GC_invoke | ].
  exists 4, 4096. split; [cbn; in_list | by vm_compute].
Qed.

(** C1, amended.  Every invocation of [GC] calls [GCSI] exactly once, and
    the first argument of that call is [sizeof(Word)], the size in bytes of
    saclib's [Word]. *)
Theorem GCSI_called_once env p past :
  ∃ cs,
    eutt eq (invoke env (GC p) past) (Ret (past ++ cs, tt)) ∧
    length (GCSI_calls cs) = 1%nat ∧
    ∀ s a, Call_GCSI s a ∈ cs → s = sizeof_Word p.
Proof.
  eexists. split; [apply GC_invoke | split; [done | ]].
  intros s a. rewrite !elem_of_cons, elem_of_nil.
  intros [H|[H|[H|[]]]]; by inversion H.
Qed.

(** C5.  [GC] takes no argument and returns nothing; it has [getcontext]
    fill the record [context] of its own frame and calls [GCSI] after that,
    with the address of that same record as second argument. *)
Theorem capture_then_collect env p past :
  let context := context_addr env past in
  ∃ ret s,
    eutt eq (invoke env (GC p) past)
      (Ret (past ++ [ Alloc context;
                      Call_getcontext context ret;
                      Call_GCSI s context ],
            tt)).
Proof.
  intros context.
  exists (getcontext_result env past), (sizeof_Word p).
  apply GC_invoke.
Qed.

(** C8.  [GC] drops what [getcontext] returns: when [getcontext] reports
    failure (-1), [GCSI] is called all the same, once, with the address of
    the record [getcontext] was given. *)
Theorem GCSI_called_after_failed_capture env p past :
  capture_fails env past →
  ∃ cs,
    eutt eq (invoke env (GC p) past) (Ret (past ++ cs, tt)) ∧
    Call_getcontext (context_addr env past) (-1) ∈ cs ∧
    GCSI_calls cs = [ Call_GCSI (sizeof_Word p) (context_addr env past) ].
Proof.
  intros Hfail. eexists. split; [apply GC_invoke | ].
  unfold capture_fails in Hfail. rewrite Hfail. split; [in_list | done].
Qed.

Lemma GCSI_called_after_failed_capture_witness :
  capture_fails capture_broken [] ∧
  ∃ cs,
    eutt eq (invoke capture_broken (GC glibc_x86_64) []) (Ret ([] ++ cs, tt)) ∧
    Call_getcontext (context_addr capture_broken []) (-1) ∈ cs ∧
    GCSI_calls cs =
      [ Call_GCSI (sizeof_Word glibc_x86_64) (context_addr capture_broken []) ].
Proof.
  split; [reflexivity | ].
  apply (GCSI_called_after_failed_capture capture_broken glibc_x86_64 []).
  reflexivity.
Defined.

(** C7, as stated, fails: [getcontext] can report failure in a program that
    was built, so a failure of the capture is not always a failed build. *)
Lemma capture_failure_counterexample :
  ¬ (capture_unavailable glibc_x86_64 ∨ capture_fails capture_broken [] →
     build glibc_x86_64 = None).
Proof.
  intros Hclaim. rewrite glibc_x86_64_build in Hclaim.
  discriminate Hclaim. right. reflexivity.
Qed.

(** C7, amended.  A platform without the capture facility does not build
    [GC.c]; a [GC] that was built has no error path: whatever [getcontext]
    returns, failure included, the invocation calls [GCSI] once and
    returns. *)
Theorem no_runtime_error_path p gc :
  build p = Some gc →
  ¬ capture_unavailable p ∧
  ∀ env past,
    ∃ cs,
      eutt eq (invoke env gc past) (Ret (past ++ cs, tt)) ∧
      GCSI_calls cs = [ Call_GCSI (sizeof_Word p) (context_addr env past) ].
Proof.
  intros Hb. apply build_Some in Hb as (Hu & _ & ->). split.
  - unfold capture_unavailable. by intros ?.
  - intros env past. eexists. split; [apply GC_invoke | done].
Qed.

Lemma no_runtime_error_path_witness :
  build glibc_x86_64 = Some (GC glibc_x86_64) ∧
  ¬ capture_unavailable glibc_x86_64 ∧
  ∀ env past,
    ∃ cs,
      eutt eq (invoke env (GC glibc_x86_64) past) (Ret (past ++ cs, tt)) ∧
      GCSI_calls cs =
        [ Call_GCSI (sizeof_Word glibc_x86_64) (context_addr env past) ].
Proof.
  split; [reflexivity | ].
  apply (no_runtime_error_path glibc_x86_64 (GC glibc_x86_64)).
  reflexivity.
Defined.


(** * Further properties of the capability header *)

Section SysdepMore.
Context (p : platform).

Lemma preprocess_sysdep_h_Some m m' :
  preprocess p sysdep_h m = Some m' → shipped p ∧ m' = (sysdep_h_run p m).2.
Proof.
  rewrite preprocess_sysdep_h. case_decide; [ | done]. by intros [= <-].
Qed.


(** The byte-order group run on any table, once its condition has a value. *)
Lemma byte_order_check_value m v :
  eval m (Eq (Ident "__BYTE_ORDER") (Ident "__LITTLE_ENDIAN")) = Some v →
  exec p byte_order_check m =
  Some (if bool_decide (v = 0)
        then ([(m, Undef "_LITTLE_ENDIAN_");
               (delete "_LITTLE_ENDIAN_" m, Define "_BIG_ENDIAN_" None)],
              <["_BIG_ENDIAN_" := None]> (delete "_LITTLE_ENDIAN_" m))
        else ([(m, Define "_LITTLE_ENDIAN_" None);
               (<["_LITTLE_ENDIAN_" := None]> m, Undef "_BIG_ENDIAN_")],
              delete "_BIG_ENDIAN_" (<["_LITTLE_ENDIAN_" := None]> m))).
Proof.
  intros Hv. unfold byte_order_check. rewrite exec_If, Hv.
  cbn [mbind option_bind]. by destruct (bool_decide (v = 0)).
Qed.

End SysdepMore.




(** X3.  After an inclusion, [_X86_LINUX_] has the empty definition when
    both [FE_DOWNWARD] and [FE_UPWARD] are defined at the [#if] (by the
    platform or by the unit itself), and otherwise is exactly what it was
    before, defined or not. *)
Theorem rounding_marker_law p m m' :
  preprocess p sysdep_h m = Some m' →
  m' !! "_X86_LINUX_" =
  if sees_both p m then Some None else m !! "_X86_LINUX_".
Proof.
  intros Hrun. apply preprocess_sysdep_h_Some in Hrun as [_ ->].
  apply sysdep_h_X86_LINUX.
Qed.

Lemma rounding_marker_law_witness :
  preprocess big_endian_no_upward sysdep_h rounding_marker =
    Some (sysdep_h_run big_endian_no_upward rounding_marker).2 ∧
  (sysdep_h_run big_endian_no_upward rounding_marker).2 !! "_X86_LINUX_" =
  if sees_both big_endian_no_upward rounding_marker then Some None
  else rounding_marker !! "_X86_LINUX_".
Proof.
  split; [reflexivity | ].
  apply (rounding_marker_law big_endian_no_upward rounding_marker).
  reflexivity.
Defined.

(** X4.  The rounding check tests the macros, not the hardware: a unit that
    defines [FE_DOWNWARD] and [FE_UPWARD] itself gets [_X86_LINUX_] on every
    platform, also on one without directed rounding. *)
Theorem own_fenv_macros_set_marker p m m' :
  preprocess p sysdep_h m = Some m' →
  defined m "FE_DOWNWARD" = true →
  defined m "FE_UPWARD" = true →
  m' !! "_X86_LINUX_" = Some None.
Proof.
  intros Hrun Hd Hu. rewrite (rounding_marker_law p m m' Hrun).
  unfold sees_both, sees. by rewrite Hd, Hu, !orb_true_r.
Qed.

Lemma own_fenv_macros_set_marker_witness :
  preprocess pdp_endian sysdep_h own_fenv =
    Some (sysdep_h_run pdp_endian own_fenv).2 ∧
  defined own_fenv "FE_DOWNWARD" = true ∧
  defined own_fenv "FE_UPWARD" = true ∧
  (sysdep_h_run pdp_endian own_fenv).2 !! "_X86_LINUX_" = Some None.
Proof.
  split; [reflexivity | ].
  do 2 (split; [by vm_compute | ]).
  apply (own_fenv_macros_set_marker pdp_endian own_fenv);
    [reflexivity | by vm_compute ..].
Defined.




(** X7.  The byte-order group by itself, on any table on which it runs:
    it ends with exactly one endianness marker and touches no other macro,
    whatever the two markers were before. *)
Theorem byte_order_check_one_marker p m lg m' :
  exec p byte_order_check m = Some (lg, m') →
  one_endianness m' ∧
  ∀ i, i ≠ "_LITTLE_ENDIAN_" → i ≠ "_BIG_ENDIAN_" → m' !! i = m !! i.
Proof.
  destruct (eval m (Eq (Ident "__BYTE_ORDER") (Ident "__LITTLE_ENDIAN")))
    as [v|] eqn:Hv.
  2: { unfold byte_order_check. by rewrite exec_If, Hv. }
  rewrite (byte_order_check_value p m v Hv).
  unfold one_endianness, defined.
  destruct (bool_decide (v = 0)); intros [= <- <-]; split.
  - by rewrite lookup_insert_ne, lookup_delete_eq, lookup_insert_eq.
  - intros i Hl Hb. by rewrite lookup_insert_ne, lookup_delete_ne.
  - by rewrite lookup_delete_ne, lookup_insert_eq, lookup_delete_eq.
  - intros i Hl Hb. by rewrite lookup_delete_ne, lookup_insert_ne.
Qed.

Lemma byte_order_check_one_marker_witness :
  exec pdp_endian byte_order_check both_markers =
    Some ([ (both_markers, Define "_LITTLE_ENDIAN_" None);
            (<["_LITTLE_ENDIAN_" := None]> both_markers, Undef "_BIG_ENDIAN_") ],
          delete "_BIG_ENDIAN_" (<["_LITTLE_ENDIAN_" := None]> both_markers)) ∧
  one_endianness (delete "_BIG_ENDIAN_" (<["_LITTLE_ENDIAN_" := None]> both_markers)) ∧
  ∀ i, i ≠ "_LITTLE_ENDIAN_" → i ≠ "_BIG_ENDIAN_" →
       delete "_BIG_ENDIAN_" (<["_LITTLE_ENDIAN_" := None]> both_markers) !! i =
       both_markers !! i.
Proof.
  split; [reflexivity | ].
  apply (byte_order_check_one_marker pdp_endian both_markers
           [ (both_markers, Define "_LITTLE_ENDIAN_" None);
             (<["_LITTLE_ENDIAN_" := None]> both_markers, Undef "_BIG_ENDIAN_") ]).
  reflexivity.
Defined.

(** X8.  In [#if] an identifier that is not a macro counts as 0: when
    neither [__BYTE_ORDER] nor [__LITTLE_ENDIAN] is defined where the
    byte-order group is reached, the comparison is [0 == 0] and the group
    selects little-endian, whatever the machine is. *)
Theorem byte_order_check_undefined_is_little p m :
  m !! "__BYTE_ORDER" = None →
  m !! "__LITTLE_ENDIAN" = None →
  ∃ lg m',
    exec p byte_order_check m = Some (lg, m') ∧
    defined m' "_LITTLE_ENDIAN_" = true ∧
    defined m' "_BIG_ENDIAN_" = false.
Proof.
  intros Hbo Hle.
  assert (eval m (Eq (Ident "__BYTE_ORDER") (Ident "__LITTLE_ENDIAN")) = Some 1)
    as Hv by (cbn [eval]; by rewrite Hbo, Hle).
  rewrite (byte_order_check_value p m 1 Hv).
  rewrite bool_decide_eq_false_2 by done.
  eexists _, _. split; [done | ]. split.
  - apply defined_true. by rewrite lookup_delete_ne, lookup_insert_eq.
  - apply defined_false. by rewrite lookup_delete_eq.
Qed.

Lemma byte_order_check_undefined_is_little_witness :
  big_marker !! "__BYTE_ORDER" = None ∧
  big_marker !! "__LITTLE_ENDIAN" = None ∧
  ∃ lg m',
    exec big_endian_no_upward byte_order_check big_marker = Some (lg, m') ∧
    defined m' "_LITTLE_ENDIAN_" = true ∧
    defined m' "_BIG_ENDIAN_" = false.
Proof.
  do 2 (split; [by vm_compute | ]).
  apply (byte_order_check_undefined_is_little big_endian_no_upward big_marker);
    by vm_compute.
Defined.


(** * Further properties of the collection entry point *)

(** X9.  [n] pauses in a row are [n] rounds of the same three calls: room
    for a [context], [getcontext] on it, [GCSI] with [sizeof(Word)] and that
    same address.  [GCSI] is called [n] times in all, and never with a record
    that [getcontext] was not given just before. *)
Theorem GC_times_rounds env p n past :
  ∃ rounds : list (addr * Z),
    length rounds = n ∧
    eutt eq (invoke env (GC_times p n) past)
      (Ret (past ++ (rounds ≫= pause_calls p), tt)) ∧
    length (GCSI_calls (rounds ≫= pause_calls p)) = n.
Proof.
  revert past. induction n as [|n IH]; intros past.
  - exists []. split; [done | split; [ | done]].
    unfold invoke. cbn [GC_times]. rewrite interp_state_ret.
    cbn. by rewrite app_nil_r.
  - pose proof (GC_invoke env p past) as Hfirst. unfold invoke in Hfirst.
    destruct (IH (past ++ pause_calls p
                      (context_addr env past, getcontext_result env past)))
      as (rounds & Hlen & Hrest & Hcount).
    exists ((context_addr env past, getcontext_result env past) :: rounds).
    split; [cbn; by rewrite Hlen | split].
    + unfold invoke in *. cbn [GC_times].
      rewrite interp_state_bind, Hfirst, bind_ret_l. cbn [fst snd].
      unfold pause_calls at 1 in Hrest. cbn [fst snd] in Hrest.
      rewrite Hrest. rewrite <- app_assoc. reflexivity.
    + rewrite bind_cons. unfold GCSI_calls in *.
      by rewrite List.filter_app, length_app, Hcount.
Qed.

